(** * Health watch: reconciliation of supervised pods and the HTTP status probe

    A shallow embedding of package [watch] (MonitorPodHealth,
    updateHealthMonitors, updatePods, MonitorHealth, checkHealth, Check,
    resultFromCheck, getBody, resToKPRes) and the properties the
    specification states about it.

    Go values are modelled as follows.
    - [int] fields (status port, HTTP status code) are [Z];
    - [string] is [string]; a nil-able [error] is [option error];
      a nil-able [*http.Response] is [option Response];
    - a slice is a [list], [append] adds at the end;
    - channels, updaters, the HTTP client and the logger are handles;
    - what package watch does to the outside (sends on channels, [go]
      statements, log lines it writes, calls into the health manager,
      the updaters and the response body) is recorded, in program order,
      in the trace of a [World] threaded through a small state monad;
      what the called collaborators do in turn is theirs and is not
      part of the trace. *)

From Stdlib Require Import List String Ascii ZArith Bool Lia DecimalString Permutation.
Import ListNotations.
Local Open Scope string_scope.
Local Open Scope Z_scope.

Set Implicit Arguments.

(** ** Data of the collaborating packages *)

(** Go's [error]: only [Error()] is ever called on it. *)
Record error : Type := mkError { Error : string }.

(** pods.Manifest: the fields package watch reads, and the rest of the
    manifest carried through as an opaque payload. *)
Record PodManifest : Type := mkManifest {
  Id : string;
  StatusPort : Z;
  StatusHTTP : bool;
  payload : string
}.

(** kp.ManifestResult: a manifest and the store key it was read from. *)
Record ManifestResult : Type := mkManifestResult {
  Manifest : PodManifest;
  Path : string
}.

(** health.HealthState is a Go string type. *)
Definition HealthState : Type := string.

(** Modelled from the spec: the constants health.Passing and
    health.Critical are declared in pkg/health, which is not part of the
    sources at hand; the specification names the two classifications
    passing and critical. *)
Definition Passing : HealthState := "passing".
Definition Critical : HealthState := "critical".

(** health.Result.  Go's composite literal leaves the unnamed fields at
    their zero value, the empty string. *)
Record Result : Type := mkResult {
  ID : string;
  Node : string;
  Service : string;
  Status : HealthState;
  Output : string
}.

(** kp.WatchResult *)
Record WatchResult : Type := mkWatchResult {
  wrService : string;
  wrNode : string;
  wrId : string;
  wrStatus : string;
  wrOutput : string
}.

(** Handles of objects owned by other packages or by the runtime. *)
Definition HttpClient : Type := nat.
Definition Logger : Type := nat.
Definition Chan : Type := nat.

(** kp.HealthUpdater, as obtained from [healthManager.NewUpdater(pod, service)]. *)
Record HealthUpdater : Type := mkUpdater {
  updPod : string;
  updService : string;
  updHandle : nat
}.

(** kp.HealthManager *)
Definition HealthManager : Type := nat.

(** The response body stream: what [ioutil.ReadAll] yields on it, the
    bytes read and the error that ended the reading, if any. *)
Record ReadCloser : Type := mkBody {
  bodyData : string;
  bodyErr : option error
}.

(** http.Response: the two fields package watch reads. *)
Record Response : Type := mkResponse {
  StatusCode : Z;
  Body : ReadCloser
}.

(** ** Data of package watch *)

Record StatusChecker : Type := mkStatusChecker {
  scID : string;
  scNode : string;
  URI : string;
  Client : HttpClient
}.

Record PodWatch : Type := mkPodWatch {
  manifest : PodManifest;
  updater : HealthUpdater;
  statusChecker : StatusChecker;
  shutdownCh : Chan;
  logger : Logger
}.

(** ** Effects *)

Inductive Event : Type :=
| EvSend (ch : Chan)                         (* ch <- true *)
| EvGo (p : PodWatch)                        (* go p.MonitorHealth() *)
| EvNewUpdater (hm : HealthManager) (u : HealthUpdater)
| EvPutHealth (u : HealthUpdater) (r : WatchResult)
| EvUpdaterClose (u : HealthUpdater)
| EvManagerClose (hm : HealthManager)
| EvBodyClose (b : ReadCloser)
| EvWarning (l : Logger) (err : error) (msg : string).

(** The world: the next fresh channel and updater handles and the
    events so far, oldest first. *)
Record World : Type := mkWorld {
  nextChan : nat;
  nextUpdater : nat;
  trace : list Event
}.

Definition M (A : Type) : Type := World -> A * World.

Definition ret {A} (a : A) : M A := fun w => (a, w).

Definition bind {A B} (m : M A) (k : A -> M B) : M B :=
  fun w => let (a, w') := m w in k a w'.

Notation "x <- m ;; k" := (bind m (fun x => k))
  (at level 61, m at next level, right associativity).
Notation "m ;;; k" := (bind m (fun _ => k))
  (at level 61, right associativity).

Definition emit (e : Event) : M unit :=
  fun w => (tt, mkWorld (nextChan w) (nextUpdater w) (trace w ++ [e])).

(** [make(chan bool, 1)] *)
Definition makeChan : M Chan :=
  fun w => (nextChan w, mkWorld (S (nextChan w)) (nextUpdater w) (trace w)).

(** [ch <- true].  The send is recorded; the channels [updatePods] makes
    hold one value and are sent on once, by the loop that then forgets
    the watch, so the send does not wait for the worker. *)
Definition send (ch : Chan) : M unit := emit (EvSend ch).

(** [healthManager.NewUpdater(pod, service)] *)
Definition NewUpdater (hm : HealthManager) (pod service : string) : M HealthUpdater :=
  fun w =>
    let u := mkUpdater pod service (nextUpdater w) in
    (u, mkWorld (nextChan w) (S (nextUpdater w)) (trace w ++ [EvNewUpdater hm u])).

(** [logger.WithError(err).Warningln(msg)] *)
Definition Warningln (l : Logger) (err : error) (msg : string) : M unit :=
  emit (EvWarning l err msg).

(** ** The status checker *)

(** [getBody]: the deferred [Close] runs after [ReadAll], whatever it
    returned. *)
Definition getBody (resp : Response) : M (string * option error) :=
  let r := match bodyErr (Body resp) with
           | Some err => ("", Some err)
           | None => (bodyData (Body resp), None)
           end in
  emit (EvBodyClose (Body resp)) ;;; ret r.

Definition withStatus (res : Result) (s : HealthState) : Result :=
  mkResult (ID res) (Node res) (Service res) s (Output res).

Definition withOutput (res : Result) (out : string) : Result :=
  mkResult (ID res) (Node res) (Service res) (Status res) out.

Definition resultFromCheck (sc : StatusChecker)
    (resp : option Response) (err : option error) : M (Result * option error) :=
  let res := mkResult (scID sc) (scNode sc) (scID sc) "" "" in
  match err, resp with
  | None, Some r =>
      (* err == nil && resp != nil *)
      oe <- getBody r ;;
      let res := withOutput res (fst oe) in
      let res := if (200 <=? StatusCode r) && (StatusCode r <? 300)
                 then withStatus res Passing
                 else withStatus res Critical in
      ret (res, snd oe)
  | _, _ =>
      (* err != nil || resp == nil *)
      let res := withStatus res Critical in
      let res := match err with
                 | Some e => withOutput res (Error e)
                 | None => res
                 end in
      ret (res, None)
  end.

(** [StatusCheck] is [sc.Client.Get(sc.URI)]: what the network answers
    is an input of the model. *)
Definition GetOutcome : Type := (option Response * option error)%type.

Definition Check (sc : StatusChecker) (got : GetOutcome) : M (Result * option error) :=
  resultFromCheck sc (fst got) (snd got).

Definition resToKPRes (res : Result) : WatchResult :=
  mkWatchResult (Service res) (Node res) (ID res) (Status res) (Output res).

(** ** Reconciliation *)

(** [%d] of [fmt.Sprintf] *)
Definition itoa (z : Z) : string := NilZero.string_of_int (Z.to_int z).

Definition statusURI (scheme node : string) (port : Z) : string :=
  scheme ++ "://" ++ node ++ ":" ++ itoa port ++ "/_status".

(** The inner loop of the first pass: is some manifest of [reality]
    named like the watched pod? *)
Definition inReality (reality : list ManifestResult) (pod : PodWatch) : bool :=
  existsb (fun man => String.eqb (Id (Manifest man)) (Id (manifest pod))) reality.

(** The inner loop of the second pass: [missing] stays true when no
    watch of [newCurrent] is named like the manifest. *)
Definition missing (newCurrent : list PodWatch) (man : ManifestResult) : bool :=
  negb (existsb (fun pod => String.eqb (Id (Manifest man)) (Id (manifest pod))) newCurrent).

(** First pass: for pod in current, if pod not in reality: kill. *)
Fixpoint killRemoved (reality : list ManifestResult)
    (current newCurrent : list PodWatch) : M (list PodWatch) :=
  match current with
  | [] => ret newCurrent
  | pod :: rest =>
      if negb (inReality reality pod)
      then send (shutdownCh pod) ;;; killRemoved reality rest newCurrent
      else killRemoved reality rest (newCurrent ++ [pod])
  end.

(** Second pass: for pod in reality, if pod not in current: create a
    podwatch and append it. *)
Fixpoint addMissing (healthManager : HealthManager) (client : HttpClient)
    (node : string) (lg : Logger)
    (reality : list ManifestResult) (newCurrent : list PodWatch) : M (list PodWatch) :=
  match reality with
  | [] => ret newCurrent
  | man :: rest =>
      if missing newCurrent man && negb (StatusPort (Manifest man) =? 0)
      then
        let uri := if StatusHTTP (Manifest man)
                   then statusURI "http" node (StatusPort (Manifest man))
                   else statusURI "https" node (StatusPort (Manifest man)) in
        let sc := mkStatusChecker (Id (Manifest man)) node uri client in
        u <- NewUpdater healthManager (Id (Manifest man)) (Id (Manifest man)) ;;
        ch <- makeChan ;;
        let newPod := mkPodWatch (Manifest man) u sc ch lg in
        emit (EvGo newPod) ;;;
        addMissing healthManager client node lg rest (newCurrent ++ [newPod])
      else addMissing healthManager client node lg rest newCurrent
  end.

Definition updatePods (healthManager : HealthManager) (client : HttpClient)
    (current : list PodWatch) (reality : list ManifestResult)
    (node : string) (lg : Logger) : M (list PodWatch) :=
  newCurrent <- killRemoved reality current [] ;;
  addMissing healthManager client node lg reality newCurrent.

(** The identities of a supervised set and of a snapshot. *)
Definition podId (p : PodWatch) : string := Id (manifest p).
Definition manId (m : ManifestResult) : string := Id (Manifest m).

(** *** The reconciliation loop *)

(** What [store.ListPods(path)] answers: the manifests, the request time
    and the error. *)
Definition ListPodsAnswer : Type := (list ManifestResult * Z * option error)%type.

(** kp.Store, at one moment in time: the store is a remote service and
    may answer differently at every poll. *)
Record Store : Type := mkStore {
  ListPods : string -> ListPodsAnswer
}.

Section ReconciliationLoop.

(** [kp.RealityPath], the key under which a node's pods are listed. *)
Variable RealityPath : string -> string.

Definition updateHealthMonitors (store : Store) (healthManager : HealthManager)
    (client : HttpClient) (watchedPods : list PodWatch)
    (node : string) (lg : Logger) : M (list PodWatch) :=
  let path := RealityPath node in
  let '(reality, _, err) := ListPods store path in
  match err with
  | Some e => Warningln lg e "failed to get pods from reality store"
  | None => ret tt
  end ;;;
  updatePods healthManager client watchedPods reality node lg.

(** The shutdown branch: [for _, pod := range pods { pod.shutdownCh <- true }]. *)
Fixpoint shutdownAll (pods : list PodWatch) : M unit :=
  match pods with
  | [] => ret tt
  | pod :: rest => send (shutdownCh pod) ;;; shutdownAll rest
  end.

(** What the [select] of the loop receives: the poll timer fires, and
    the store is then in some state, or the shutdown channel delivers. *)
Inductive LoopSelect : Type :=
| PollTick (store : Store)
| Shutdown.

(** The [for { select { ... } }] of MonitorPodHealth over the sequence
    of things its [select] receives.  [Some pods]: the loop waits in
    [select] with [pods] supervised; [None]: it has returned. *)
Fixpoint monitorLoop (healthManager : HealthManager) (client : HttpClient)
    (node : string) (lg : Logger)
    (sel : list LoopSelect) (pods : list PodWatch) : M (option (list PodWatch)) :=
  match sel with
  | [] => ret (Some pods)
  | PollTick store :: rest =>
      pods' <- updateHealthMonitors store healthManager client pods node lg ;;
      monitorLoop healthManager client node lg rest pods'
  | Shutdown :: _ =>
      shutdownAll pods ;;;
      emit (EvManagerClose healthManager) ;;;
      ret None
  end.

(** MonitorPodHealth once the store, the health manager and the HTTP
    client have been obtained (failing to obtain one is fatal to the
    process). *)
Definition MonitorPodHealth (store0 : Store) (healthManager : HealthManager)
    (client : HttpClient) (node : string) (lg : Logger)
    (sel : list LoopSelect) : M (option (list PodWatch)) :=
  pods <- updateHealthMonitors store0 healthManager client [] node lg ;;
  monitorLoop healthManager client node lg sel pods.

End ReconciliationLoop.

(** ** The worker *)

(** What the outside answers during one probe cycle: the HTTP GET, and
    the error returned by [PutHealth] if it comes to be called. *)
Record ProbeEnv : Type := mkProbeEnv {
  getAnswer : GetOutcome;
  putAnswer : option error
}.

(** [updater.PutHealth(res)] *)
Definition PutHealth (u : HealthUpdater) (r : WatchResult)
    (answer : option error) : M (option error) :=
  emit (EvPutHealth u r) ;;; ret answer.

Definition checkHealth (p : PodWatch) (env : ProbeEnv) : M unit :=
  he <- Check (statusChecker p) (getAnswer env) ;;
  match snd he with
  | Some err => Warningln (logger p) err "health check failed"
  | None =>
      (* the value PutHealth returns is dropped *)
      PutHealth (updater p) (resToKPRes (fst he)) (putAnswer env) ;;; ret tt
  end.

Inductive WorkerSelect : Type :=
| ProbeTick (env : ProbeEnv)
| ShutdownSignal.

Inductive WorkerState : Type := RUNNING | STOPPED.

(** The [for { select { ... } }] of MonitorHealth over the sequence of
    things its [select] receives. *)
Fixpoint MonitorHealth (p : PodWatch) (sel : list WorkerSelect) : M WorkerState :=
  match sel with
  | [] => ret RUNNING
  | ProbeTick env :: rest => checkHealth p env ;;; MonitorHealth p rest
  | ShutdownSignal :: _ => emit (EvUpdaterClose (updater p)) ;;; ret STOPPED
  end.

(** ** Concrete values used in examples *)

Definition world0 : World := mkWorld 0 0 [].

Definition svc (id : string) (port : Z) (http : bool) : ManifestResult :=
  mkManifestResult (mkManifest id port http "") ("reality/node1/" ++ id).

Definition checker1 : StatusChecker :=
  mkStatusChecker "svc1" "node1" "http://node1:8080/_status" 9%nat.

Definition watch1 : PodWatch :=
  mkPodWatch (mkManifest "svc1" 8080 true "") (mkUpdater "svc1" "svc1" 0)
             checker1 0%nat 1%nat.

Definition world1 : World :=
  mkWorld 1 1 [EvNewUpdater 7%nat (updater watch1); EvGo watch1].

Definition watch2 : PodWatch :=
  mkPodWatch (mkManifest "svc2" 9090 false "") (mkUpdater "svc2" "svc2" 1)
             (mkStatusChecker "svc2" "node1" "https://node1:9090/_status" 9%nat)
             1%nat 1%nat.

Definition response (code : Z) (body : string) : Response :=
  mkResponse code (mkBody body None).

Definition brokenResponse (code : Z) (partial : string) (e : error) : Response :=
  mkResponse code (mkBody partial (Some e)).

Definition failingStore (e : error) : Store :=
  mkStore (fun _ => ([], 0, Some e)).

(** The world once [watch1] and then [watch2] have been started. *)
Definition world2 : World :=
  mkWorld 2 2 [EvNewUpdater 7%nat (updater watch1); EvGo watch1;
               EvNewUpdater 7%nat (updater watch2); EvGo watch2].

Definition storeOf (reality : list ManifestResult) : Store :=
  mkStore (fun _ => (reality, 0, None)).

Definition realityPath1 (n : string) : string := "reality/" ++ n.

(** ** Vocabulary of the properties *)

Definition isWarning (e : Event) : bool :=
  match e with EvWarning _ _ _ => true | _ => false end.

Definition sameId (id : string) (p : PodWatch) : bool := String.eqb (podId p) id.

(** What starting a watch records: its updater is obtained, then its
    goroutine is started. *)
Definition spawnEvents (hm : HealthManager) (p : PodWatch) : list Event :=
  [EvNewUpdater hm (updater p); EvGo p].

Definition stopEvent (p : PodWatch) : Event := EvSend (shutdownCh p).

(** A watch started for a manifest of the snapshot. *)
Definition startedFor (reality : list ManifestResult) (p : PodWatch) : Prop :=
  exists man, In man reality /\ manifest p = Manifest man
              /\ StatusPort (Manifest man) <> 0.

(** [updatePods] over successive snapshots, each run starting from the
    supervised set the previous one returned, as the loop does. *)
Fixpoint reconcileAll (healthManager : HealthManager) (client : HttpClient)
    (node : string) (lg : Logger)
    (snapshots : list (list ManifestResult)) (pods : list PodWatch) : M (list PodWatch) :=
  match snapshots with
  | [] => ret pods
  | reality :: rest =>
      pods' <- updatePods healthManager client pods reality node lg ;;
      reconcileAll healthManager client node lg rest pods'
  end.

(** ** Reading a trace *)

(** The watches whose goroutine was started, the channels a stop signal
    was sent on, the results handed to an updater, the warnings logged
    and the updaters closed, each in the order of the trace. *)
Definition spawned (t : list Event) : list PodWatch :=
  flat_map (fun e => match e with EvGo p => [p] | _ => [] end) t.

Definition stops (t : list Event) : list Chan :=
  flat_map (fun e => match e with EvSend ch => [ch] | _ => [] end) t.

Definition published (t : list Event) : list (HealthUpdater * WatchResult) :=
  flat_map (fun e => match e with EvPutHealth u r => [(u, r)] | _ => [] end) t.

Definition warnings (t : list Event) : list (Logger * error * string) :=
  flat_map (fun e => match e with EvWarning l err msg => [(l, err, msg)] | _ => [] end) t.

Definition closedUpdaters (t : list Event) : list HealthUpdater :=
  flat_map (fun e => match e with EvUpdaterClose u => [u] | _ => [] end) t.

(** A watch as [updatePods] builds it for its manifest. *)
Definition wellStarted (client : HttpClient) (node : string) (lg : Logger)
    (p : PodWatch) : Prop :=
  statusChecker p
  = mkStatusChecker (Id (manifest p)) node
      (statusURI (if StatusHTTP (manifest p) then "http" else "https") node
                 (StatusPort (manifest p)))
      client
  /\ logger p = lg
  /\ updPod (updater p) = Id (manifest p)
  /\ updService (updater p) = Id (manifest p)
  /\ StatusPort (manifest p) <> 0.

(** What holds of the supervised set [pods] of the reconciliation loop
    and the world between two cycles. *)
Record Supervising (client : HttpClient) (node : string) (lg : Logger)
    (pods : list PodWatch) (w : World) : Prop := mkSupervising {
  (* the supervised watches are the workers started and not yet told to stop *)
  sup_live : forall p, In p pods <->
               In p (spawned (trace w)) /\ ~ In (shutdownCh p) (stops (trace w));
  (* one watch per identity, one channel per watch *)
  sup_ids : NoDup (map podId pods);
  sup_chans : NoDup (map shutdownCh (spawned (trace w)));
  sup_fresh : forall p, In p (spawned (trace w)) -> (shutdownCh p < nextChan w)%nat;
  (* no channel is sent a second stop signal, and none but a worker's is sent one *)
  sup_stops : NoDup (stops (trace w));
  sup_stops_own : forall ch, In ch (stops (trace w)) ->
                    In ch (map shutdownCh (spawned (trace w)));
  sup_well : forall p, In p (spawned (trace w)) -> wellStarted client node lg p
}.

(** What one probe cycle of a worker may hand to its updater. *)
Definition ownResult (p : PodWatch) (ur : HealthUpdater * WatchResult) : Prop :=
  fst ur = updater p
  /\ wrId (snd ur) = scID (statusChecker p)
  /\ wrService (snd ur) = scID (statusChecker p)
  /\ wrNode (snd ur) = scNode (statusChecker p)
  /\ (wrStatus (snd ur) = Passing \/ wrStatus (snd ur) = Critical).

(** * Properties *)

Local Open Scope list_scope.

(** The scenario of the specification: snapshot A starts one worker with
    the expected probe URI. *)
Example scenario_A :
  updatePods 7%nat 9%nat [] [svc "svc1" 8080 true] "node1" 1%nat world0
  = ([watch1], world1).
Proof. reflexivity. Qed.

Example scenario_B :
  updatePods 7%nat 9%nat [watch1] [] "node1" 1%nat world1
  = ([], mkWorld 1 1 (trace world1 ++ [EvSend 0%nat])).
Proof. reflexivity. Qed.

Example scenario_C :
  fst (updatePods 7%nat 9%nat [] [svc "svc1" 8080 true; svc "svc2" 0 false]
         "node1" 1%nat world0)
  = [watch1].
Proof. reflexivity. Qed.

(** ** Facts about the monad and the two inner loops *)

Lemma world_eta (w : World) :
  mkWorld (nextChan w) (nextUpdater w) (trace w) = w.
Proof. now destruct w. Qed.

Lemma inReality_In (reality : list ManifestResult) (pod : PodWatch) :
  inReality reality pod = true <-> In (podId pod) (map manId reality).
Proof.
  unfold inReality. rewrite existsb_exists, in_map_iff. split.
  - intros [man [Hin Heq]]. apply String.eqb_eq in Heq. now exists man.
  - intros [man [Heq Hin]]. exists man. split; [exact Hin|].
    now apply String.eqb_eq.
Qed.

Lemma missing_false_In (newCurrent : list PodWatch) (man : ManifestResult) :
  missing newCurrent man = false <-> In (manId man) (map podId newCurrent).
Proof.
  unfold missing. rewrite negb_false_iff, existsb_exists, in_map_iff. split.
  - intros [pod [Hin Heq]]. apply String.eqb_eq in Heq. now exists pod.
  - intros [pod [Heq Hin]]. exists pod. split; [exact Hin|].
    now apply String.eqb_eq.
Qed.

Lemma missing_true_notIn (newCurrent : list PodWatch) (man : ManifestResult) :
  missing newCurrent man = true <-> ~ In (manId man) (map podId newCurrent).
Proof.
  rewrite <- missing_false_In. destruct (missing newCurrent man); split; intros; congruence.
Qed.

(** The first pass keeps, in order, the watches named in the snapshot
    and sends one stop signal to each of the others. *)
Lemma killRemoved_spec (reality : list ManifestResult) (current : list PodWatch) :
  forall (newCurrent : list PodWatch) (w : World),
    killRemoved reality current newCurrent w
    = (newCurrent ++ filter (inReality reality) current,
       mkWorld (nextChan w) (nextUpdater w)
         (trace w ++ map stopEvent
                       (filter (fun p => negb (inReality reality p)) current))).
Proof.
  induction current as [|pod rest IH]; intros newCurrent w; simpl.
  - unfold ret. now rewrite !app_nil_r, world_eta.
  - destruct (inReality reality pod); simpl.
    + rewrite IH, <- app_assoc. reflexivity.
    + unfold bind, send, emit. rewrite IH. simpl.
      rewrite <- app_assoc. reflexivity.
Qed.

Lemma filter_all {A} (f : A -> bool) (l : list A) :
  (forall a, In a l -> f a = true) ->
  filter f l = l /\ filter (fun a => negb (f a)) l = [].
Proof.
  induction l as [|a l IH]; intros Hall; simpl; [now split|].
  rewrite (Hall a (or_introl eq_refl)); simpl.
  destruct IH as [IH1 IH2]; [intros; apply Hall; now right|].
  now rewrite IH1, IH2.
Qed.

Lemma filter_none {A} (f : A -> bool) (l : list A) :
  (forall a, In a l -> f a = false) ->
  filter f l = [] /\ filter (fun a => negb (f a)) l = l.
Proof.
  induction l as [|a l IH]; intros Hall; simpl; [now split|].
  rewrite (Hall a (or_introl eq_refl)); simpl.
  destruct IH as [IH1 IH2]; [intros; apply Hall; now right|].
  now rewrite IH1, IH2.
Qed.

Section SecondPass.

Variables (hm : HealthManager) (client : HttpClient) (node : string) (lg : Logger).

(** The second pass appends watches to [newCurrent], each for a
    manifest of the snapshot with a non-zero port and a name no watch
    has yet, and records their start. *)
Lemma addMissing_struct (reality : list ManifestResult) :
  forall (newCurrent : list PodWatch) (w : World),
  exists added : list PodWatch,
    addMissing hm client node lg reality newCurrent w
    = (newCurrent ++ added,
       mkWorld (nextChan w + List.length added) (nextUpdater w + List.length added)
               (trace w ++ flat_map (spawnEvents hm) added))
    /\ NoDup (map podId added)
    /\ (forall p, In p added ->
          ~ In (podId p) (map podId newCurrent) /\ startedFor reality p).
Proof.
  induction reality as [|man rest IH]; intros newCurrent w.
  - exists []. simpl. unfold ret.
    rewrite !app_nil_r, !Nat.add_0_r, world_eta.
    repeat split; [constructor | contradiction | contradiction].
  - simpl.
    destruct (missing newCurrent man && negb (StatusPort (Manifest man) =? 0)) eqn:Hc.
    + apply andb_true_iff in Hc. destruct Hc as [Hmiss Hport].
      apply missing_true_notIn in Hmiss.
      apply negb_true_iff, Z.eqb_neq in Hport.
      unfold bind at 1. unfold NewUpdater at 1.
      unfold bind at 1. unfold makeChan at 1.
      unfold bind at 1. unfold emit at 1. simpl.
      match goal with
      | |- context [addMissing _ _ _ _ rest (newCurrent ++ [?np]) ?w1] =>
          destruct (IH (newCurrent ++ [np]) w1) as (added & Heq & Hnd & Hall);
          exists (np :: added); rewrite Heq; clear Heq
      end.
      simpl. repeat split.
      * f_equal; [now rewrite <- app_assoc|].
        f_equal; [lia | lia |].
        unfold spawnEvents at 2. simpl. now rewrite <- !app_assoc.
      * constructor; [|exact Hnd].
        intros Hin. apply in_map_iff in Hin. destruct Hin as (p & Hid & Hp).
        destruct (Hall p Hp) as [Hfresh _]. apply Hfresh.
        rewrite map_app, in_app_iff. right. simpl. left. now rewrite Hid.
      * destruct H as [<- | Hp]; [exact Hmiss|].
        destruct (Hall p Hp) as [Hfresh _]. intros Hin. apply Hfresh.
        rewrite map_app, in_app_iff. now left.
      * destruct H as [<- | Hp].
        -- exists man. simpl. repeat split; [now left | exact Hport].
        -- destruct (Hall p Hp) as [_ (man' & Hin & Hm & Hp')].
           exists man'. repeat split; [now right | exact Hm | exact Hp'].
    + destruct (IH newCurrent w) as (added & Heq & Hnd & Hall).
      exists added. rewrite Heq. repeat split; try exact Hnd.
      * now apply Hall.
      * destruct (Hall p H) as [_ (man' & Hin & Hm & Hp')].
        exists man'. repeat split; [now right | exact Hm | exact Hp'].
Qed.

(** Every manifest of the snapshot with a non-zero port is named by a
    watch once the second pass is over. *)
Lemma addMissing_covers (reality : list ManifestResult) :
  forall (newCurrent : list PodWatch) (w : World) (man : ManifestResult),
    In man reality -> StatusPort (Manifest man) <> 0 ->
    In (manId man)
       (map podId (fst (addMissing hm client node lg reality newCurrent w))).
Proof.
  induction reality as [|man0 rest IH]; intros newCurrent w man Hin Hport;
    [contradiction|].
  simpl.
  destruct (missing newCurrent man0 && negb (StatusPort (Manifest man0) =? 0)) eqn:Hc.
  - unfold bind at 1. unfold NewUpdater at 1.
    unfold bind at 1. unfold makeChan at 1.
    unfold bind at 1. unfold emit at 1. simpl.
    destruct Hin as [-> | Hin]; [|now apply IH].
    match goal with
    | |- context [addMissing _ _ _ _ rest ?nc ?w1] =>
        destruct (addMissing_struct rest nc w1) as (added & Heq & _)
    end.
    rewrite Heq. simpl. rewrite !map_app, !in_app_iff. left. right. now left.
  - destruct Hin as [-> | Hin]; [|now apply IH].
    apply andb_false_iff in Hc. destruct Hc as [Hmiss | Hzero].
    + apply missing_false_In in Hmiss.
      destruct (addMissing_struct rest newCurrent w) as (added & Heq & _).
      rewrite Heq. simpl. rewrite map_app, in_app_iff. now left.
    + apply negb_false_iff, Z.eqb_eq in Hzero. contradiction.
Qed.

(** The second pass does nothing when every manifest is already
    watched or has port 0. *)
Lemma addMissing_fixed (reality : list ManifestResult)
    (newCurrent : list PodWatch) (w : World) :
  (forall man, In man reality ->
     In (manId man) (map podId newCurrent) \/ StatusPort (Manifest man) = 0) ->
  addMissing hm client node lg reality newCurrent w = (newCurrent, w).
Proof.
  induction reality as [|man rest IH]; intros Hall; [reflexivity|].
  simpl.
  assert (Hc : missing newCurrent man && negb (StatusPort (Manifest man) =? 0) = false).
  { apply andb_false_iff.
    destruct (Hall man (or_introl eq_refl)) as [Hin | Hzero].
    - left. now apply missing_false_In.
    - right. now apply negb_false_iff, Z.eqb_eq. }
  rewrite Hc. apply IH. intros man' Hin. apply Hall. now right.
Qed.

End SecondPass.

(** ** The reconciliation diff as a whole *)

Section Diff.

Variables (hm : HealthManager) (client : HttpClient) (node : string) (lg : Logger).

(** One run keeps the watches named in the snapshot, stops the others
    and starts the watches the second pass adds. *)
Lemma updatePods_struct (current : list PodWatch) (reality : list ManifestResult)
    (w : World) :
  exists added : list PodWatch,
    updatePods hm client current reality node lg w
    = (filter (inReality reality) current ++ added,
       mkWorld (nextChan w + List.length added) (nextUpdater w + List.length added)
               (trace w
                ++ map stopEvent (filter (fun p => negb (inReality reality p)) current)
                ++ flat_map (spawnEvents hm) added))
    /\ NoDup (map podId added)
    /\ (forall p, In p added ->
          ~ In (podId p) (map podId (filter (inReality reality) current))
          /\ startedFor reality p).
Proof.
  unfold updatePods, bind. rewrite killRemoved_spec. simpl.
  match goal with
  | |- context [addMissing _ _ _ _ _ ?nc ?w1] =>
      destruct (addMissing_struct hm client node lg reality nc w1)
        as (added & Heq & Hnd & Hall)
  end.
  exists added. rewrite Heq. simpl. rewrite <- app_assoc.
  repeat split; try exact Hnd; now apply Hall.
Qed.

Lemma startedFor_inReality (reality : list ManifestResult) (p : PodWatch) :
  startedFor reality p -> inReality reality p = true.
Proof.
  intros (man & Hin & Hm & _). apply inReality_In.
  unfold podId. rewrite Hm. now apply (in_map manId).
Qed.

(** Every watch a run returns is named in the snapshot. *)
Lemma updatePods_inReality (current : list PodWatch) (reality : list ManifestResult)
    (w : World) (p : PodWatch) :
  In p (fst (updatePods hm client current reality node lg w)) ->
  inReality reality p = true.
Proof.
  destruct (updatePods_struct current reality w) as (added & Heq & _ & Hall).
  rewrite Heq. simpl. rewrite in_app_iff. intros [Hin | Hin].
  - now apply filter_In in Hin.
  - now apply startedFor_inReality, Hall.
Qed.

(** Every manifest with a non-zero port is named by a watch the run
    returns. *)
Lemma updatePods_covers (current : list PodWatch) (reality : list ManifestResult)
    (w : World) (man : ManifestResult) :
  In man reality -> StatusPort (Manifest man) <> 0 ->
  In (manId man) (map podId (fst (updatePods hm client current reality node lg w))).
Proof.
  intros Hin Hport. unfold updatePods, bind.
  destruct (killRemoved reality current [] w) as [nc w1].
  now apply addMissing_covers.
Qed.

Lemma NoDup_map_filter {A B} (f : A -> B) (g : A -> bool) (l : list A) :
  NoDup (map f l) -> NoDup (map f (filter g l)).
Proof.
  induction l as [|a l IH]; simpl; intros Hnd; [constructor|].
  inversion Hnd as [|? ? Hnotin Hnd']; subst.
  destruct (g a); simpl; [|now apply IH].
  constructor; [|now apply IH].
  intros Hin. apply Hnotin. apply in_map_iff in Hin.
  destruct Hin as (x & Hx & Hin). apply filter_In in Hin.
  apply in_map_iff. exists x. now split.
Qed.

(** A run never makes an identity supervised twice. *)
Lemma updatePods_NoDup (current : list PodWatch) (reality : list ManifestResult)
    (w : World) :
  NoDup (map podId current) ->
  NoDup (map podId (fst (updatePods hm client current reality node lg w))).
Proof.
  intros Hnd.
  destruct (updatePods_struct current reality w) as (added & Heq & Hnda & Hall).
  rewrite Heq. simpl. rewrite map_app. apply NoDup_app.
  - now apply NoDup_map_filter.
  - exact Hnda.
  - intros id Hin Hin'. apply in_map_iff in Hin'.
    destruct Hin' as (p & <- & Hp). now apply (Hall p Hp).
Qed.

End Diff.

(** The supervised set of the loop never holds two watches of one
    identity: it starts empty and every run keeps it so. *)
Lemma reconcileAll_NoDup
    (hm : HealthManager) (client : HttpClient) (node : string) (lg : Logger)
    (snapshots : list (list ManifestResult)) :
  forall (current : list PodWatch) (w : World),
    NoDup (map podId current) ->
    NoDup (map podId (fst (reconcileAll hm client node lg snapshots current w))).
Proof.
  induction snapshots as [|reality rest IH]; intros current w Hnd; [exact Hnd|].
  simpl. unfold bind.
  destruct (updatePods hm client current reality node lg w) as [pods' w'] eqn:Hrun.
  apply IH. change pods' with (fst (pods', w')). rewrite <- Hrun.
  now apply updatePods_NoDup.
Qed.

(** Reading the events of the two passes. *)

Lemma spawned_app (a b : list Event) : spawned (a ++ b) = spawned a ++ spawned b.
Proof. apply flat_map_app. Qed.

Lemma stops_app (a b : list Event) : stops (a ++ b) = stops a ++ stops b.
Proof. apply flat_map_app. Qed.

Lemma published_app (a b : list Event) :
  published (a ++ b) = published a ++ published b.
Proof. apply flat_map_app. Qed.

Lemma warnings_app (a b : list Event) : warnings (a ++ b) = warnings a ++ warnings b.
Proof. apply flat_map_app. Qed.

Lemma closedUpdaters_app (a b : list Event) :
  closedUpdaters (a ++ b) = closedUpdaters a ++ closedUpdaters b.
Proof. apply flat_map_app. Qed.

Lemma spawned_stopEvents (l : list PodWatch) : spawned (map stopEvent l) = [].
Proof. induction l as [|p l IH]; simpl; [reflexivity | exact IH]. Qed.

Lemma stops_stopEvents (l : list PodWatch) :
  stops (map stopEvent l) = map shutdownCh l.
Proof. induction l as [|p l IH]; simpl; [reflexivity | now rewrite <- IH]. Qed.

Lemma spawned_spawnEvents (hm : HealthManager) (l : list PodWatch) :
  spawned (flat_map (spawnEvents hm) l) = l.
Proof. induction l as [|p l IH]; simpl; [reflexivity | now f_equal]. Qed.

Lemma stops_spawnEvents (hm : HealthManager) (l : list PodWatch) :
  stops (flat_map (spawnEvents hm) l) = [].
Proof. induction l as [|p l IH]; simpl; [reflexivity | exact IH]. Qed.

Lemma NoDup_map_inj_on {A B} (f : A -> B) (l : list A) (x y : A) :
  NoDup (map f l) -> In x l -> In y l -> f x = f y -> x = y.
Proof.
  induction l as [|a l IH]; simpl; intros Hnd Hx Hy Hf; [contradiction|].
  inversion Hnd as [|? ? Hnotin Hnd']; subst.
  destruct Hx as [-> | Hx], Hy as [-> | Hy]; try reflexivity.
  - elim Hnotin. rewrite Hf. now apply in_map.
  - elim Hnotin. rewrite <- Hf. now apply in_map.
  - now apply IH.
Qed.

Lemma filter_filter_implied {A} (f g : A -> bool) (l : list A) :
  (forall a, In a l -> f a = true -> g a = true) ->
  filter f (filter g l) = filter f l.
Proof.
  induction l as [|a l IH]; intros Himp; simpl; [reflexivity|].
  assert (IH' : filter f (filter g l) = filter f l)
    by (apply IH; intros; apply Himp; [now right | assumption]).
  destruct (g a) eqn:Hg; simpl.
  - now rewrite IH'.
  - destruct (f a) eqn:Hf; [|exact IH'].
    rewrite (Himp a (or_introl eq_refl) Hf) in Hg. discriminate.
Qed.

Lemma sameId_true (id : string) (p : PodWatch) :
  sameId id p = true <-> podId p = id.
Proof. unfold sameId. apply String.eqb_eq. Qed.

(** ** Exact correspondence *)

(** C1: when every descriptor of the snapshot has a non-zero status port,
    the identities supervised after one run of [updatePods] are exactly the
    identities occurring in the snapshot, whatever was supervised before;
    and the run adds no second watch for an identity, also when the
    snapshot lists an identity several times: a supervised set with one
    watch per identity stays so. *)
Theorem updatePods_exact_correspondence
    (hm : HealthManager) (client : HttpClient) (current : list PodWatch)
    (reality : list ManifestResult) (node : string) (lg : Logger) (w : World) :
  (forall man, In man reality -> StatusPort (Manifest man) <> 0) ->
  let newCurrent := fst (updatePods hm client current reality node lg w) in
  (forall id, In id (map podId newCurrent) <-> In id (map manId reality))
  /\ (NoDup (map podId current) -> NoDup (map podId newCurrent)).
Proof.
  intros Hports newCurrent. split.
  - intros id. split.
    + intros Hin. apply in_map_iff in Hin. destruct Hin as (p & <- & Hp).
      apply inReality_In. eapply updatePods_inReality. exact Hp.
    + intros Hin. apply in_map_iff in Hin. destruct Hin as (man & <- & Hman).
      apply updatePods_covers; [exact Hman | now apply Hports].
  - apply updatePods_NoDup.
Qed.

Lemma updatePods_exact_correspondence_witness :
  let reality := [svc "svc1" 8080 true; svc "svc3" 443 false; svc "svc1" 8081 false] in
  let newCurrent := fst (updatePods 7%nat 9%nat [watch2] reality "node1" 1%nat world1) in
  (forall id, In id (map podId newCurrent) <-> In id (map manId reality))
  /\ NoDup (map podId newCurrent).
Proof.
  intros reality newCurrent.
  destruct (updatePods_exact_correspondence 7%nat 9%nat [watch2] reality "node1"
              1%nat world1) as [Hids Hnodup].
  - intros man [<- | [<- | [<- | []]]]; simpl; discriminate.
  - split; [exact Hids|]. apply Hnodup. simpl.
    constructor; [intros [] | constructor].
Defined.

(** ** Zero-port exclusion *)

(** C4, as the specification states it, fails: a supervised service whose
    descriptor changes to status port 0 while it remains in the snapshot
    stays supervised. *)
Lemma zero_port_kept_when_supervised :
  let reality := [svc "svc1" 0 true] in
  let newCurrent := fst (updatePods 7%nat 9%nat [watch1] reality "node1" 1%nat world1) in
  Forall (fun man => StatusPort (Manifest man) = 0) reality
  /\ newCurrent = [watch1]
  /\ In "svc1" (map manId reality)
  /\ In "svc1" (map podId newCurrent).
Proof.
  simpl. repeat split.
  - repeat constructor.
  - now left.
  - now left.
Qed.

(** Where the identities of a run's result come from: a watch that was
    there before, or a descriptor of the snapshot with a non-zero port. *)
Lemma updatePods_ids_origin
    (hm : HealthManager) (client : HttpClient) (current : list PodWatch)
    (reality : list ManifestResult) (node : string) (lg : Logger) (w : World)
    (id : string) :
  In id (map podId (fst (updatePods hm client current reality node lg w))) ->
  In id (map podId current)
  \/ exists man, In man reality /\ manId man = id /\ StatusPort (Manifest man) <> 0.
Proof.
  intros Hin.
  destruct (updatePods_struct hm client node lg current reality w)
    as (added & Heq & _ & Hall).
  rewrite Heq in Hin. simpl in Hin.
  rewrite map_app, in_app_iff in Hin. destruct Hin as [Hin | Hin].
  - left. apply in_map_iff in Hin. destruct Hin as (p & Hid & Hp).
    apply filter_In in Hp. apply in_map_iff. exists p. now split.
  - right. apply in_map_iff in Hin. destruct Hin as (p & Hid & Hp).
    destruct (Hall p Hp) as [_ (man & Hman & Hm & Hport)].
    exists man. repeat split; [exact Hman | | exact Hport].
    unfold manId. rewrite <- Hm. exact Hid.
Qed.

(** C4, amended: an identity that is not supervised before a run of
    [updatePods] and whose descriptors in the snapshot all carry status
    port 0 is not supervised after the run. *)
Theorem zero_port_never_started
    (hm : HealthManager) (client : HttpClient) (current : list PodWatch)
    (reality : list ManifestResult) (node : string) (lg : Logger) (w : World)
    (id : string) :
  ~ In id (map podId current) ->
  (forall man, In man reality -> manId man = id -> StatusPort (Manifest man) = 0) ->
  ~ In id (map podId (fst (updatePods hm client current reality node lg w))).
Proof.
  intros Hfresh Hzero Hin.
  apply updatePods_ids_origin in Hin.
  destruct Hin as [Hold | (man & Hman & Hid & Hport)].
  - exact (Hfresh Hold).
  - exact (Hport (Hzero man Hman Hid)).
Qed.

Lemma zero_port_never_started_witness :
  ~ In "svc2" (map podId
       (fst (updatePods 7%nat 9%nat [watch1]
               [svc "svc1" 8080 true; svc "svc2" 0 false; svc "svc2" 0 true]
               "node1" 1%nat world1))).
Proof.
  apply zero_port_never_started.
  - simpl. intros [H | []]. discriminate H.
  - intros man [<- | [<- | [<- | []]]] Hid; simpl in *;
      [discriminate Hid | reflexivity | reflexivity].
Defined.

(** The same over any number of snapshots: an identity that starts
    unsupervised and carries port 0 wherever it appears is never
    supervised. *)
Lemma reconcileAll_skips_zero_port
    (hm : HealthManager) (client : HttpClient) (node : string) (lg : Logger)
    (id : string) (snapshots : list (list ManifestResult)) :
  (forall reality man, In reality snapshots -> In man reality ->
     manId man = id -> StatusPort (Manifest man) = 0) ->
  forall (current : list PodWatch) (w : World),
    ~ In id (map podId current) ->
    ~ In id (map podId (fst (reconcileAll hm client node lg snapshots current w))).
Proof.
  induction snapshots as [|reality rest IH]; intros Hzero current w Hfresh.
  - exact Hfresh.
  - simpl. unfold bind.
    destruct (updatePods hm client current reality node lg w) as [pods' w'] eqn:Hrun.
    apply IH.
    + intros r man Hr. apply Hzero. now right.
    + change pods' with (fst (pods', w')). rewrite <- Hrun.
      intros Hin. apply updatePods_ids_origin in Hin.
      destruct Hin as [Hold | (man & Hman & Hid & Hport)].
      * exact (Hfresh Hold).
      * exact (Hport (Hzero reality man (or_introl eq_refl) Hman Hid)).
Qed.

(** ** Untouched identities *)

(** C6: a watch of the supervised set whose identity occurs in the
    snapshot is carried into the new set as the same value, whatever the
    other fields of the descriptor say; the watches of that identity in
    the new set are those of the old one and none of the watches started
    has that identity.  The stop signals of the run are those of the prior
    watches whose identity is absent from the snapshot and no others: the
    kept watch is not among them, and when every watch has a channel of
    its own, as the loop maintains, no stop signal is sent on its channel. *)
Theorem updatePods_keeps_common
    (hm : HealthManager) (client : HttpClient) (current : list PodWatch)
    (reality : list ManifestResult) (node : string) (lg : Logger) (w : World)
    (pod : PodWatch) :
  In pod current ->
  In (podId pod) (map manId reality) ->
  let r := updatePods hm client current reality node lg w in
  let stopped := filter (fun p => negb (inReality reality p)) current in
  In pod (fst r)
  /\ filter (sameId (podId pod)) (fst r) = filter (sameId (podId pod)) current
  /\ ~ In pod stopped
  /\ (forall p, In p stopped -> podId p <> podId pod)
  /\ exists started : list PodWatch,
       let evs := map stopEvent stopped ++ flat_map (spawnEvents hm) started in
       fst r = filter (inReality reality) current ++ started
       /\ trace (snd r) = trace w ++ evs
       /\ stops evs = map shutdownCh stopped
       /\ spawned evs = started
       /\ (forall p, In p started -> podId p <> podId pod)
       /\ (NoDup (map shutdownCh current) -> ~ In (shutdownCh pod) (stops evs)).
Proof.
  intros Hin Hreal r stopped. subst r.
  destruct (updatePods_struct hm client node lg current reality w)
    as (added & Heq & _ & Hall).
  rewrite Heq. simpl.
  assert (Hpod : inReality reality pod = true) by now apply inReality_In.
  assert (Hkept : In pod (filter (inReality reality) current)).
  { apply filter_In. now split. }
  assert (Hadded : forall p, In p added -> podId p <> podId pod).
  { intros p Hp Hid. destruct (Hall p Hp) as [Hfresh _]. apply Hfresh.
    rewrite Hid. now apply in_map. }
  assert (Hnot : ~ In pod stopped).
  { intros Hs. apply filter_In in Hs. destruct Hs as [_ Hs].
    rewrite Hpod in Hs. discriminate Hs. }
  assert (Hstops : stops (map stopEvent stopped ++ flat_map (spawnEvents hm) added)
                   = map shutdownCh stopped).
  { now rewrite stops_app, stops_stopEvents, stops_spawnEvents, app_nil_r. }
  split; [|split; [|split; [|split]]].
  - apply in_app_iff. now left.
  - rewrite filter_app.
    destruct (filter_none (sameId (podId pod)) added) as [Hnone _].
    { intros p Hp. destruct (sameId (podId pod) p) eqn:Hs; [|reflexivity].
      apply sameId_true in Hs. now elim (Hadded p Hp). }
    rewrite Hnone, app_nil_r. apply filter_filter_implied.
    intros p _ Hs. apply sameId_true in Hs. apply inReality_In. now rewrite Hs.
  - exact Hnot.
  - intros p Hp Hid. apply filter_In in Hp. destruct Hp as [_ Hout].
    apply negb_true_iff in Hout.
    assert (Hp : inReality reality p = true)
      by (apply inReality_In; now rewrite Hid).
    congruence.
  - exists added. cbv zeta.
    split; [reflexivity|]. split; [reflexivity|]. split; [exact Hstops|].
    split; [now rewrite spawned_app, spawned_stopEvents, spawned_spawnEvents|].
    split; [exact Hadded|].
    intros Hchans Hsent. rewrite Hstops in Hsent.
    apply in_map_iff in Hsent. destruct Hsent as (q & Hch & Hq).
    assert (q = pod).
    { apply (NoDup_map_inj_on shutdownCh current); try assumption.
      now apply filter_In in Hq. }
    subst q. now apply Hnot.
Qed.

Lemma updatePods_keeps_common_witness :
  let current := [watch2; watch1] in
  let reality := [svc "svc1" 0 false; svc "svc3" 443 false] in
  let r := updatePods 7%nat 9%nat current reality "node1" 1%nat world2 in
  let stopped := filter (fun p => negb (inReality reality p)) current in
  In watch1 (fst r)
  /\ filter (sameId "svc1") (fst r) = [watch1]
  /\ stopped = [watch2]
  /\ exists started : list PodWatch,
       let evs := map stopEvent stopped ++ flat_map (spawnEvents 7%nat) started in
       fst r = filter (inReality reality) current ++ started
       /\ trace (snd r) = trace world2 ++ evs
       /\ stops evs = [1%nat]
       /\ ~ In 0%nat (stops evs).
Proof.
  intros current reality r stopped.
  destruct (updatePods_keeps_common 7%nat 9%nat current reality "node1" 1%nat world2
              watch1) as (Hin & Hsame & _ & _ & started & Hres & Htr & Hst & _ & _ & Hch).
  - simpl. right. now left.
  - simpl. now left.
  - split; [exact Hin|]. split; [exact Hsame|]. split; [reflexivity|].
    exists started. cbv zeta.
    split; [exact Hres|]. split; [exact Htr|]. split; [exact Hst|].
    apply Hch. simpl. constructor; [intros [H | []]; discriminate H|].
    constructor; [intros [] | constructor].
Defined.

(** ** Idempotence *)

(** C7: running [updatePods] again on its own result with the same
    snapshot returns the same supervised set and leaves the world as it
    is: no stop signal is sent and no watch is started. *)
Theorem updatePods_idempotent
    (hm : HealthManager) (client : HttpClient) (current : list PodWatch)
    (reality : list ManifestResult) (node : string) (lg : Logger) (w : World) :
  let r := updatePods hm client current reality node lg w in
  updatePods hm client (fst r) reality node lg (snd r) = r.
Proof.
  intros r.
  assert (Hin : forall p, In p (fst r) -> inReality reality p = true)
    by (intros p; apply updatePods_inReality).
  assert (Hcov : forall man, In man reality ->
            In (manId man) (map podId (fst r)) \/ StatusPort (Manifest man) = 0).
  { intros man Hman. destruct (Z.eq_dec (StatusPort (Manifest man)) 0) as [Hz | Hnz].
    - now right.
    - left. now apply updatePods_covers. }
  destruct r as [pods w1]. simpl in *.
  unfold updatePods, bind. rewrite killRemoved_spec.
  destruct (filter_all (inReality reality) pods Hin) as [Hall Hnone].
  rewrite Hall, Hnone. simpl. rewrite app_nil_r, world_eta.
  now apply addMissing_fixed.
Qed.

(** ** The status checker *)

Lemma Check_response (sc : StatusChecker) (r : Response) (w : World) :
  Check sc (Some r, None) w
  = (let out := match bodyErr (Body r) with
                | Some e => ("", Some e)
                | None => (bodyData (Body r), None)
                end in
     let st := if (200 <=? StatusCode r) && (StatusCode r <? 300)
               then Passing else Critical in
     (mkResult (scID sc) (scNode sc) (scID sc) st (fst out), snd out),
     mkWorld (nextChan w) (nextUpdater w) (trace w ++ [EvBodyClose (Body r)])).
Proof.
  unfold Check, resultFromCheck, getBody, bind, emit, ret. simpl.
  destruct (bodyErr (Body r)); simpl;
    destruct ((200 <=? StatusCode r) && (StatusCode r <? 300)); reflexivity.
Qed.

Lemma in_2xx (c : Z) :
  (200 <=? c) && (c <? 300) = true <-> 200 <= c < 300.
Proof. rewrite andb_true_iff, Z.leb_le, Z.ltb_lt. reflexivity. Qed.

(** C2: for every response received, the result of [Check] is passing
    when the status code lies in [200,300) and critical otherwise; and
    when the body is read to its end the output of the result is the
    body and no error is returned. *)
Theorem Check_classifies_response
    (sc : StatusChecker) (r : Response) (w : World) :
  let res := fst (fst (Check sc (Some r, None) w)) in
  (200 <= StatusCode r < 300 -> Status res = Passing)
  /\ (StatusCode r < 200 \/ 300 <= StatusCode r -> Status res = Critical)
  /\ (bodyErr (Body r) = None ->
      Output res = bodyData (Body r)
      /\ snd (fst (Check sc (Some r, None) w)) = None).
Proof.
  intros res. subst res. rewrite Check_response. simpl.
  split; [|split].
  - intros Hc. apply in_2xx in Hc. now rewrite Hc.
  - intros Hc.
    destruct ((200 <=? StatusCode r) && (StatusCode r <? 300)) eqn:E; [|reflexivity].
    apply in_2xx in E. lia.
  - intros Hbody. rewrite Hbody. simpl. split; reflexivity.
Qed.

Lemma Check_classifies_response_witness :
  let res := fst (fst (Check checker1 (Some (response 299 "ok"), None) world1)) in
  Status res = Passing /\ Output res = "ok".
Proof.
  intros res.
  destruct (Check_classifies_response checker1 (response 299 "ok") world1)
    as (Hpass & _ & Hout).
  split; [apply Hpass; simpl; lia | apply Hout; reflexivity].
Defined.

(** The boundary codes. *)
Example Check_boundaries :
  map (fun c => Status (fst (fst (Check checker1 (Some (response c "body"), None) world0))))
      [199; 200; 299; 300]
  = [Critical; Passing; Passing; Critical].
Proof. reflexivity. Qed.

(** C8: a transport error makes [Check] return a critical result whose
    output is the text of the error, and a nil error, whether or not a
    response came with it; nothing else happens. *)
Theorem Check_transport_error
    (sc : StatusChecker) (resp : option Response) (e : error) (w : World) :
  Check sc (resp, Some e) w
  = ((mkResult (scID sc) (scNode sc) (scID sc) Critical (Error e), None), w).
Proof. destruct resp; reflexivity. Qed.

(** C9: when reading the body fails, [Check] returns the result with an
    empty output and the classification of the status code, together with
    the read error. *)
Theorem Check_body_read_error
    (sc : StatusChecker) (r : Response) (e : error) (w : World) :
  bodyErr (Body r) = Some e ->
  let out := fst (Check sc (Some r, None) w) in
  Output (fst out) = ""
  /\ snd out = Some e
  /\ (200 <= StatusCode r < 300 -> Status (fst out) = Passing)
  /\ (StatusCode r < 200 \/ 300 <= StatusCode r -> Status (fst out) = Critical).
Proof.
  intros Hbody out. subst out. rewrite Check_response, Hbody. simpl.
  repeat split.
  - intros Hc. apply in_2xx in Hc. now rewrite Hc.
  - intros Hc.
    destruct ((200 <=? StatusCode r) && (StatusCode r <? 300)) eqn:E; [|reflexivity].
    apply in_2xx in E. lia.
Qed.

Lemma Check_body_read_error_witness :
  let out := fst (Check checker1
                    (Some (brokenResponse 200 "par" (mkError "unexpected EOF")), None)
                    world1) in
  Output (fst out) = "" /\ snd out = Some (mkError "unexpected EOF")
  /\ Status (fst out) = Passing.
Proof.
  intros out.
  destruct (Check_body_read_error checker1
              (brokenResponse 200 "par" (mkError "unexpected EOF")) world1 eq_refl)
    as (Hout & Herr & Hpass & _).
  split; [exact Hout | split; [exact Herr | apply Hpass; simpl; lia]].
Defined.

(** C10: on a nil response with a nil error [Check] returns a critical
    result with empty output and a nil error, without touching the
    response; and whatever the probe yields, the result carries the
    checker's ID as ID and Service and the checker's Node as Node. *)
Theorem Check_nil_response_and_identity (sc : StatusChecker) (w : World) :
  Check sc (None, None) w
  = ((mkResult (scID sc) (scNode sc) (scID sc) Critical "", None), w)
  /\ forall (got : GetOutcome) (w' : World),
       let res := fst (fst (Check sc got w')) in
       ID res = scID sc /\ Service res = scID sc /\ Node res = scNode sc.
Proof.
  split; [reflexivity|].
  intros [[r|] [e|]] w'; try (repeat split; reflexivity).
  rewrite Check_response. simpl. repeat split.
Qed.

(** ** Store fetch errors *)

Lemma inReality_nil (pod : PodWatch) : inReality [] pod = false.
Proof. reflexivity. Qed.

(** C3, as the specification states it, fails: the cycle does not empty
    the snapshot itself.  When [ListPods] returns an error together with
    a slice that is not empty, the cycle logs the warning and reconciles
    against that slice: here svc2 stays supervised and is sent no stop
    signal, and a watch is started for svc3. *)
Lemma fetch_error_reconciles_returned_slice :
  let e := mkError "partial listing" in
  let store := mkStore (fun _ => ([svc "svc2" 9090 false; svc "svc3" 443 false],
                                  0, Some e)) in
  let r := updateHealthMonitors realityPath1 store 7%nat 9%nat [watch2; watch1]
             "node1" 1%nat world2 in
  let watch3 := mkPodWatch (mkManifest "svc3" 443 false "") (mkUpdater "svc3" "svc3" 2)
                  (mkStatusChecker "svc3" "node1" "https://node1:443/_status" 9%nat)
                  2%nat 1%nat in
  snd (ListPods store (realityPath1 "node1")) = Some e
  /\ fst r = [watch2; watch3]
  /\ trace (snd r)
     = trace world2
       ++ [EvWarning 1%nat e "failed to get pods from reality store";
           EvSend 0%nat;
           EvNewUpdater 7%nat (updater watch3); EvGo watch3].
Proof. repeat split. Qed.

(** C3, amended: when [ListPods] answers with an error, and with it the nil
    slice, the cycle logs one warning, sends a stop signal to every
    supervised watch, starts none, returns the empty supervised set, and
    the loop goes on to its next cycle from there. *)
Theorem fetch_error_empties_supervision
    (RealityPath : string -> string) (store : Store) (hm : HealthManager)
    (client : HttpClient) (watchedPods : list PodWatch) (node : string)
    (lg : Logger) (w : World) (e : error) (d : Z) (rest : list LoopSelect) :
  ListPods store (RealityPath node) = ([], d, Some e) ->
  let w' := mkWorld (nextChan w) (nextUpdater w)
              (trace w
               ++ EvWarning lg e "failed to get pods from reality store"
                  :: map stopEvent watchedPods) in
  updateHealthMonitors RealityPath store hm client watchedPods node lg w = ([], w')
  /\ monitorLoop RealityPath hm client node lg (PollTick store :: rest) watchedPods w
     = monitorLoop RealityPath hm client node lg rest [] w'.
Proof.
  intros Hfetch w'.
  assert (Hcycle : updateHealthMonitors RealityPath store hm client watchedPods node lg w
                   = ([], w')).
  { unfold updateHealthMonitors. rewrite Hfetch.
    unfold bind at 1. unfold Warningln, emit.
    unfold updatePods, bind. rewrite killRemoved_spec.
    destruct (filter_none (inReality []) watchedPods) as [Hnone Hall];
      [intros; apply inReality_nil|].
    rewrite Hnone, Hall. simpl. unfold ret, w'. simpl.
    now rewrite <- app_assoc. }
  split; [exact Hcycle|].
  simpl. unfold bind at 1. now rewrite Hcycle.
Qed.

Lemma fetch_error_empties_supervision_witness :
  let e := mkError "connection refused" in
  let w' := mkWorld 1 1
              (trace world1
               ++ [EvWarning 1%nat e "failed to get pods from reality store";
                   EvSend 1%nat; EvSend 0%nat]) in
  updateHealthMonitors (fun n => "reality/" ++ n)%string (failingStore e)
    7%nat 9%nat [watch2; watch1] "node1" 1%nat world1 = ([], w')
  /\ monitorLoop (fun n => "reality/" ++ n)%string 7%nat 9%nat "node1" 1%nat
       [PollTick (failingStore e); PollTick (mkStore (fun _ => ([svc "svc1" 8080 true], 0, None)))]
       [watch2; watch1] world1
     = monitorLoop (fun n => "reality/" ++ n)%string 7%nat 9%nat "node1" 1%nat
       [PollTick (mkStore (fun _ => ([svc "svc1" 8080 true], 0, None)))] [] w'.
Proof.
  intros e w'.
  apply (fetch_error_empties_supervision (fun n => "reality/" ++ n)%string
           (failingStore e) 7%nat 9%nat [watch2; watch1] "node1" 1%nat world1 (d := 0)).
  reflexivity.
Defined.

(** ** Publication errors *)

(** C5, as the specification states it, fails: when the probe succeeds and
    [PutHealth] returns an error, the worker records the publication and
    nothing else; no warning is logged. *)
Lemma publish_error_is_not_logged :
  let env := mkProbeEnv (Some (response 200 "ok"), None)
                        (Some (mkError "consul unavailable")) in
  let w' := snd (checkHealth watch1 env world1) in
  trace w' = trace world1
             ++ [EvBodyClose (mkBody "ok" None);
                 EvPutHealth (updater watch1)
                   (mkWatchResult "svc1" "node1" "svc1" "passing" "ok")]
  /\ existsb isWarning (trace w') = false.
Proof. split; reflexivity. Qed.

(** C5, amended: when [Check] returns a result and a nil error, the probe
    cycle hands the result to [PutHealth] once and drops what [PutHealth]
    returns: whether or not publishing failed, nothing is logged, the
    result is not published again, and the worker goes on to whatever its
    [select] receives next. *)
Theorem publish_error_is_dropped
    (p : PodWatch) (got : GetOutcome) (put : option error)
    (rest : list WorkerSelect) (w : World) :
  snd (fst (Check (statusChecker p) got w)) = None ->
  let health := fst (fst (Check (statusChecker p) got w)) in
  let w1 := snd (Check (statusChecker p) got w) in
  MonitorHealth p (ProbeTick (mkProbeEnv got put) :: rest) w
  = MonitorHealth p rest
      (mkWorld (nextChan w1) (nextUpdater w1)
               (trace w1 ++ [EvPutHealth (updater p) (resToKPRes health)])).
Proof.
  intros Hok health w1. subst health w1. simpl.
  unfold bind at 1. unfold checkHealth. unfold bind at 1. simpl.
  destruct (Check (statusChecker p) got w) as [[res err] w1]. simpl in *.
  subst err. reflexivity.
Qed.

Lemma publish_error_is_dropped_witness :
  MonitorHealth watch1
    [ProbeTick (mkProbeEnv (Some (response 200 "ok"), None)
                           (Some (mkError "consul unavailable")));
     ShutdownSignal] world1
  = (STOPPED,
     mkWorld 1 1
       (trace world1
        ++ [EvBodyClose (mkBody "ok" None);
            EvPutHealth (updater watch1)
              (mkWatchResult "svc1" "node1" "svc1" "passing" "ok");
            EvUpdaterClose (updater watch1)])).
Proof.
  rewrite (publish_error_is_dropped watch1 (Some (response 200 "ok"), None)
             (Some (mkError "consul unavailable")) [ShutdownSignal] world1 eq_refl).
  reflexivity.
Defined.

(** * Further properties of the package *)

(** ** The watches a run starts *)

(** The watches the second pass starts are built from their manifests as
    the source spells out, and take the next fresh channels and updater
    handles in order. *)
Lemma addMissing_started (hm : HealthManager) (client : HttpClient)
    (node : string) (lg : Logger) (reality : list ManifestResult) :
  forall (newCurrent : list PodWatch) (w : World),
  exists added : list PodWatch,
    fst (addMissing hm client node lg reality newCurrent w) = newCurrent ++ added
    /\ map shutdownCh added = seq (nextChan w) (List.length added)
    /\ map (fun p => updHandle (updater p)) added
       = seq (nextUpdater w) (List.length added)
    /\ Forall (wellStarted client node lg) added.
Proof.
  induction reality as [|man rest IH]; intros newCurrent w.
  - exists []. simpl. rewrite app_nil_r. repeat split. constructor.
  - simpl.
    destruct (missing newCurrent man && negb (StatusPort (Manifest man) =? 0)) eqn:Hc.
    + apply andb_true_iff in Hc. destruct Hc as [_ Hport].
      apply negb_true_iff, Z.eqb_neq in Hport.
      unfold bind at 1. unfold NewUpdater at 1.
      unfold bind at 1. unfold makeChan at 1.
      unfold bind at 1. unfold emit at 1. simpl.
      match goal with
      | |- context [addMissing _ _ _ _ rest (newCurrent ++ [?np]) ?w1] =>
          destruct (IH (newCurrent ++ [np]) w1) as (added & Heq & Hch & Hup & Hwell);
          exists (np :: added); rewrite Heq; clear Heq
      end.
      simpl in *. rewrite Hch, Hup, <- app_assoc. repeat split.
      constructor; [|exact Hwell].
      unfold wellStarted. simpl. repeat split; try assumption.
      now destruct (StatusHTTP (Manifest man)).
    + apply IH.
Qed.

(** Everything one run of the diff does, in one place. *)
Lemma updatePods_full (hm : HealthManager) (client : HttpClient)
    (current : list PodWatch) (reality : list ManifestResult)
    (node : string) (lg : Logger) (w : World) :
  exists added : list PodWatch,
    updatePods hm client current reality node lg w
    = (filter (inReality reality) current ++ added,
       mkWorld (nextChan w + List.length added) (nextUpdater w + List.length added)
               (trace w
                ++ map stopEvent (filter (fun p => negb (inReality reality p)) current)
                ++ flat_map (spawnEvents hm) added))
    /\ (forall p, In p added -> startedFor reality p)
    /\ map shutdownCh added = seq (nextChan w) (List.length added)
    /\ Forall (wellStarted client node lg) added.
Proof.
  destruct (updatePods_struct hm client node lg current reality w)
    as (added & Heq & _ & Hall).
  exists added. split; [exact Heq|]. split; [intros p Hp; now apply Hall|].
  assert (Hfst : fst (updatePods hm client current reality node lg w)
                 = filter (inReality reality) current ++ added)
    by now rewrite Heq.
  unfold updatePods, bind in Hfst. rewrite killRemoved_spec in Hfst. simpl in Hfst.
  match type of Hfst with
  | context [addMissing _ _ _ _ _ ?nc ?w1] =>
      destruct (addMissing_started hm client node lg reality nc w1)
        as (added' & Heq' & Hch & _ & Hwell)
  end.
  rewrite Heq' in Hfst. apply app_inv_head in Hfst. subst added'.
  simpl in Hch. now split.
Qed.

(** ** What the reconciliation loop keeps true *)

Section LoopInvariant.

Variables (hm : HealthManager) (client : HttpClient) (node : string) (lg : Logger).

Lemma Supervising_start (w : World) :
  trace w = [] -> Supervising client node lg [] w.
Proof.
  intros Ht. constructor; rewrite ?Ht; simpl.
  - intros p. split; [contradiction | intros [[] _]].
  - constructor.
  - constructor.
  - contradiction.
  - constructor.
  - contradiction.
  - contradiction.
Qed.

Lemma Supervising_chans_pods (pods : list PodWatch) (w : World) :
  Supervising client node lg pods w -> NoDup (map shutdownCh pods).
Proof.
  intros Hs. apply NoDup_map_NoDup_ForallPairs.
  - intros x y Hx Hy Hf.
    apply (NoDup_map_inj_on shutdownCh (spawned (trace w))); try assumption.
    + apply (sup_chans Hs).
    + now apply (sup_live Hs).
    + now apply (sup_live Hs).
  - apply NoDup_map_inv with (f := podId). apply (sup_ids Hs).
Qed.

(** Events that neither start a worker nor send a stop signal leave the
    supervision as it is. *)
Lemma Supervising_ext (pods : list PodWatch) (w w' : World) :
  spawned (trace w') = spawned (trace w) ->
  stops (trace w') = stops (trace w) ->
  nextChan w' = nextChan w ->
  Supervising client node lg pods w -> Supervising client node lg pods w'.
Proof.
  intros Hsp Hst Hn Hs.
  constructor; rewrite ?Hsp, ?Hst, ?Hn; apply Hs.
Qed.

(** One run of the diff keeps the supervision. *)
Lemma Supervising_updatePods (pods : list PodWatch) (reality : list ManifestResult)
    (w : World) :
  Supervising client node lg pods w ->
  Supervising client node lg
    (fst (updatePods hm client pods reality node lg w))
    (snd (updatePods hm client pods reality node lg w)).
Proof.
  intros Hs.
  assert (Hids : NoDup (map podId (fst (updatePods hm client pods reality node lg w))))
    by (apply updatePods_NoDup, (sup_ids Hs)).
  pose proof (Supervising_chans_pods Hs) as Hpch.
  destruct (updatePods_full hm client pods reality node lg w)
    as (added & Heq & Hstarted & Hch & Hwell).
  rewrite Heq in *. simpl in Hids. simpl.
  set (kept := filter (inReality reality) pods) in *.
  set (stopped := filter (fun p => negb (inReality reality p)) pods) in *.
  assert (Hsp : spawned (trace w ++ map stopEvent stopped
                         ++ flat_map (spawnEvents hm) added)
                = spawned (trace w) ++ added).
  { now rewrite !spawned_app, spawned_stopEvents, spawned_spawnEvents. }
  assert (Hst : stops (trace w ++ map stopEvent stopped
                       ++ flat_map (spawnEvents hm) added)
                = stops (trace w) ++ map shutdownCh stopped).
  { now rewrite !stops_app, stops_stopEvents, stops_spawnEvents, app_nil_r. }
  assert (Hnew : forall p, In p added -> (nextChan w <= shutdownCh p < nextChan w + List.length added)%nat).
  { intros p Hp. apply in_seq. rewrite <- Hch. now apply in_map. }
  assert (Hold : forall p, In p pods -> (shutdownCh p < nextChan w)%nat).
  { intros p Hp. apply (sup_fresh Hs). now apply (sup_live Hs). }
  assert (Hstop_old : forall ch, In ch (stops (trace w)) -> (ch < nextChan w)%nat).
  { intros ch Hin. apply (sup_stops_own Hs) in Hin. apply in_map_iff in Hin.
    destruct Hin as (q & <- & Hq). now apply (sup_fresh Hs). }
  assert (Hstopped : forall q, In q stopped -> In q pods /\ inReality reality q = false).
  { intros q Hq. apply filter_In in Hq. destruct Hq as [Hq Hr].
    split; [exact Hq | now apply negb_true_iff]. }
  constructor; simpl; rewrite ?Hsp, ?Hst.
  - (* the supervised watches are the live workers *)
    intros p. rewrite !in_app_iff. split.
    + intros [Hk | Ha].
      * apply filter_In in Hk. destruct Hk as [Hp Hr].
        destruct (proj1 (sup_live Hs p) Hp) as [Hspawned Hnot].
        split; [now left|]. intros [Hin | Hin]; [now apply Hnot|].
        apply in_map_iff in Hin. destruct Hin as (q & Hf & Hq).
        destruct (Hstopped q Hq) as [Hqp Hqr].
        assert (q = p).
        { apply (NoDup_map_inj_on shutdownCh pods); assumption. }
        subst q. congruence.
      * split; [now right|]. pose proof (Hnew p Ha) as Hge.
        intros [Hin | Hin].
        -- apply Hstop_old in Hin. lia.
        -- apply in_map_iff in Hin. destruct Hin as (q & Hf & Hq).
           destruct (Hstopped q Hq) as [Hqp _]. apply Hold in Hqp. lia.
    + intros [[Hspawned | Ha] Hnot]; [|now right]. left.
      assert (Hp : In p pods).
      { apply (sup_live Hs). split; [exact Hspawned|].
        intros Hin. apply Hnot. now left. }
      apply filter_In. split; [exact Hp|].
      destruct (inReality reality p) eqn:Hr; [reflexivity|].
      elim Hnot. right. apply in_map. apply filter_In.
      split; [exact Hp | now rewrite Hr].
  - exact Hids.
  - rewrite map_app, Hch. apply NoDup_app.
    + apply (sup_chans Hs).
    + apply seq_NoDup.
    + intros ch Hin Hin'. apply in_map_iff in Hin. destruct Hin as (q & <- & Hq).
      apply (sup_fresh Hs) in Hq. apply in_seq in Hin'. lia.
  - intros p Hin. apply in_app_iff in Hin. destruct Hin as [Hin | Hin].
    + apply (sup_fresh Hs) in Hin. lia.
    + apply Hnew in Hin. lia.
  - apply NoDup_app.
    + apply (sup_stops Hs).
    + now apply NoDup_map_filter.
    + intros ch Hin Hin'. apply in_map_iff in Hin'. destruct Hin' as (q & <- & Hq).
      destruct (Hstopped q Hq) as [Hqp _].
      now apply (proj1 (sup_live Hs q) Hqp).
  - intros ch Hin. rewrite map_app, in_app_iff. left.
    apply in_app_iff in Hin. destruct Hin as [Hin | Hin].
    + now apply (sup_stops_own Hs).
    + apply in_map_iff in Hin. destruct Hin as (q & <- & Hq).
      destruct (Hstopped q Hq) as [Hqp _].
      apply in_map. now apply (sup_live Hs).
  - intros p Hin. apply in_app_iff in Hin. destruct Hin as [Hin | Hin].
    + now apply (sup_well Hs).
    + rewrite Forall_forall in Hwell. now apply Hwell.
Qed.

End LoopInvariant.

Lemma shutdownAll_spec (pods : list PodWatch) (w : World) :
  shutdownAll pods w
  = (tt, mkWorld (nextChan w) (nextUpdater w) (trace w ++ map stopEvent pods)).
Proof.
  revert w. induction pods as [|pod rest IH]; intros w; simpl.
  - unfold ret. now rewrite app_nil_r, world_eta.
  - unfold bind, send, emit. rewrite IH. simpl. now rewrite <- app_assoc.
Qed.

Section LoopRuns.

Variable RealityPath : string -> string.
Variables (hm : HealthManager) (client : HttpClient) (node : string) (lg : Logger).

Lemma Supervising_updateHealthMonitors (store : Store) (pods : list PodWatch)
    (w : World) :
  Supervising client node lg pods w ->
  Supervising client node lg
    (fst (updateHealthMonitors RealityPath store hm client pods node lg w))
    (snd (updateHealthMonitors RealityPath store hm client pods node lg w)).
Proof.
  intros Hs. unfold updateHealthMonitors.
  destruct (ListPods store (RealityPath node)) as [[reality d] [e|]];
    unfold bind at 1; simpl.
  - apply Supervising_updatePods.
    apply (Supervising_ext (w := w)); simpl;
      rewrite ?spawned_app, ?stops_app; simpl; rewrite ?app_nil_r; auto.
  - now apply Supervising_updatePods.
Qed.

(** When the shutdown channel delivers, every worker that is still
    supervised is sent its stop signal: none is left running. *)
Lemma Supervising_shutdown (pods : list PodWatch) (w : World) :
  Supervising client node lg pods w ->
  Supervising client node lg []
    (mkWorld (nextChan w) (nextUpdater w)
             (trace w ++ map stopEvent pods ++ [EvManagerClose hm])).
Proof.
  intros Hs. pose proof (Supervising_chans_pods Hs) as Hpch.
  assert (Hsp : spawned (trace w ++ map stopEvent pods ++ [EvManagerClose hm])
                = spawned (trace w)).
  { rewrite !spawned_app, spawned_stopEvents. simpl. now rewrite app_nil_r. }
  assert (Hst : stops (trace w ++ map stopEvent pods ++ [EvManagerClose hm])
                = stops (trace w) ++ map shutdownCh pods).
  { rewrite !stops_app, stops_stopEvents. simpl. now rewrite app_nil_r. }
  constructor; simpl; rewrite ?Hsp, ?Hst.
  - intros p. split; [contradiction|]. intros [Hspawned Hnot].
    apply Hnot. apply in_app_iff.
    destruct (in_dec Nat.eq_dec (shutdownCh p) (stops (trace w))) as [Hin | Hout];
      [now left | right].
    apply in_map. apply (sup_live Hs). now split.
  - constructor.
  - apply (sup_chans Hs).
  - apply (sup_fresh Hs).
  - apply NoDup_app; [apply (sup_stops Hs) | exact Hpch |].
    intros ch Hin Hin'. apply in_map_iff in Hin'. destruct Hin' as (q & <- & Hq).
    now apply (proj1 (sup_live Hs q) Hq).
  - intros ch Hin. apply in_app_iff in Hin. destruct Hin as [Hin | Hin].
    + now apply (sup_stops_own Hs).
    + apply in_map_iff in Hin. destruct Hin as (q & <- & Hq).
      apply in_map. now apply (sup_live Hs).
  - apply (sup_well Hs).
Qed.

Lemma monitorLoop_Supervising (sel : list LoopSelect) :
  forall (pods : list PodWatch) (w : World),
    Supervising client node lg pods w ->
    Supervising client node lg
      (match fst (monitorLoop RealityPath hm client node lg sel pods w) with
       | Some pods' => pods'
       | None => []
       end)
      (snd (monitorLoop RealityPath hm client node lg sel pods w)).
Proof.
  induction sel as [|[store|] rest IH]; intros pods w Hs; simpl.
  - exact Hs.
  - unfold bind.
    pose proof (Supervising_updateHealthMonitors store Hs) as Hs'.
    destruct (updateHealthMonitors RealityPath store hm client pods node lg w)
      as [pods' w'].
    simpl in Hs'. cbv beta iota. now apply IH.
  - unfold bind, emit, ret. rewrite shutdownAll_spec. simpl.
    rewrite <- app_assoc. now apply Supervising_shutdown.
Qed.

Lemma MonitorPodHealth_Supervising (store0 : Store) (sel : list LoopSelect)
    (w : World) :
  trace w = [] ->
  Supervising client node lg
    (match fst (MonitorPodHealth RealityPath store0 hm client node lg sel w) with
     | Some pods' => pods'
     | None => []
     end)
    (snd (MonitorPodHealth RealityPath store0 hm client node lg sel w)).
Proof.
  intros Ht. unfold MonitorPodHealth, bind.
  pose proof (Supervising_updateHealthMonitors store0
                (Supervising_start client node lg w Ht)) as Hs.
  destruct (updateHealthMonitors RealityPath store0 hm client [] node lg w)
    as [pods w'].
  simpl in Hs. cbv beta iota. now apply monitorLoop_Supervising.
Qed.

(** Polls alone never end the loop; what comes after them runs from the
    state they leave. *)
Lemma monitorLoop_polls (stores : list Store) (rest : list LoopSelect) :
  forall (pods : list PodWatch) (w : World),
  exists (pods1 : list PodWatch) (w1 : World),
    monitorLoop RealityPath hm client node lg (map PollTick stores) pods w
    = (Some pods1, w1)
    /\ monitorLoop RealityPath hm client node lg (map PollTick stores ++ rest) pods w
       = monitorLoop RealityPath hm client node lg rest pods1 w1.
Proof.
  induction stores as [|store stores IH]; intros pods w; simpl.
  - exists pods, w. now split.
  - unfold bind.
    destruct (updateHealthMonitors RealityPath store hm client pods node lg w)
      as [pods' w'].
    apply IH.
Qed.

End LoopRuns.

(** ** The reconciliation loop over its whole run *)

(** X1: however many polls the loop has done since the process started,
    and whatever the store answered (errors included), the supervised set
    it holds is exactly the set of workers started and not yet sent a stop
    signal, with one watch per identity, each built for its manifest as
    [updatePods] builds it. *)
Theorem loop_supervises_live_workers
    (RealityPath : string -> string) (store0 : Store) (hm : HealthManager)
    (client : HttpClient) (node : string) (lg : Logger)
    (stores : list Store) (w : World) :
  trace w = [] ->
  exists (pods : list PodWatch) (w' : World),
    MonitorPodHealth RealityPath store0 hm client node lg (map PollTick stores) w
    = (Some pods, w')
    /\ (forall p, In p pods <->
          In p (spawned (trace w')) /\ ~ In (shutdownCh p) (stops (trace w')))
    /\ NoDup (map podId pods)
    /\ (forall p, In p pods -> wellStarted client node lg p).
Proof.
  intros Ht.
  pose proof (MonitorPodHealth_Supervising RealityPath hm client node lg store0
                (map PollTick stores) w Ht) as Hs.
  unfold MonitorPodHealth, bind in *.
  destruct (updateHealthMonitors RealityPath store0 hm client [] node lg w)
    as [pods0 w0].
  destruct (monitorLoop_polls RealityPath hm client node lg stores [] pods0 w0)
    as (pods1 & w1 & Heq & _).
  rewrite Heq in *. simpl in Hs. exists pods1, w1.
  split; [reflexivity|]. split; [apply (sup_live Hs)|].
  split; [apply (sup_ids Hs)|].
  intros p Hp. apply (sup_well Hs). now apply (sup_live Hs).
Qed.

Lemma loop_supervises_live_workers_witness :
  exists (pods : list PodWatch) (w' : World),
    MonitorPodHealth realityPath1 (storeOf [svc "svc1" 8080 true]) 7%nat 9%nat
      "node1" 1%nat
      (map PollTick [storeOf []; failingStore (mkError "timeout");
                     storeOf [svc "svc2" 9090 false; svc "svc3" 0 true]])
      world0
    = (Some pods, w')
    /\ (forall p, In p pods <->
          In p (spawned (trace w')) /\ ~ In (shutdownCh p) (stops (trace w')))
    /\ NoDup (map podId pods)
    /\ (forall p, In p pods -> wellStarted 9%nat "node1" 1%nat p).
Proof.
  apply (loop_supervises_live_workers realityPath1 (storeOf [svc "svc1" 8080 true])
           7%nat 9%nat "node1" 1%nat
           [storeOf []; failingStore (mkError "timeout");
            storeOf [svc "svc2" 9090 false; svc "svc3" 0 true]] world0).
  reflexivity.
Defined.

(** X2: whatever the loop receives, every worker it starts has a stop
    channel of its own, no channel is ever sent a second stop signal, and
    a stop signal only ever goes to the channel of a worker the loop
    started. *)
Theorem loop_stop_signals_at_most_once
    (RealityPath : string -> string) (store0 : Store) (hm : HealthManager)
    (client : HttpClient) (node : string) (lg : Logger)
    (sel : list LoopSelect) (w : World) :
  trace w = [] ->
  let t := trace (snd (MonitorPodHealth RealityPath store0 hm client node lg sel w)) in
  NoDup (map shutdownCh (spawned t))
  /\ NoDup (stops t)
  /\ (forall ch, In ch (stops t) -> exists p, In p (spawned t) /\ shutdownCh p = ch).
Proof.
  intros Ht t.
  pose proof (MonitorPodHealth_Supervising RealityPath hm client node lg store0
                sel w Ht) as Hs.
  split; [apply (sup_chans Hs)|]. split; [apply (sup_stops Hs)|].
  intros ch Hin. apply (sup_stops_own Hs) in Hin. apply in_map_iff in Hin.
  destruct Hin as (p & Hch & Hp). now exists p.
Qed.

Lemma loop_stop_signals_at_most_once_witness :
  let t := trace (snd (MonitorPodHealth realityPath1 (storeOf [svc "svc1" 8080 true])
                         7%nat 9%nat "node1" 1%nat
                         [PollTick (storeOf []); PollTick (storeOf [svc "svc1" 8080 true]);
                          Shutdown; PollTick (storeOf [])]
                         world0)) in
  NoDup (map shutdownCh (spawned t))
  /\ NoDup (stops t)
  /\ (forall ch, In ch (stops t) -> exists p, In p (spawned t) /\ shutdownCh p = ch).
Proof.
  apply (loop_stop_signals_at_most_once realityPath1 (storeOf [svc "svc1" 8080 true])
           7%nat 9%nat "node1" 1%nat
           [PollTick (storeOf []); PollTick (storeOf [svc "svc1" 8080 true]);
            Shutdown; PollTick (storeOf [])]
           world0).
  reflexivity.
Defined.

(** X3: when the shutdown channel delivers after any number of polls, the
    loop sends a stop signal to each watch it supervises, closes the
    health manager last and returns, whatever would have come next; and
    by then every worker started since the process began has been sent
    exactly one stop signal. *)
Theorem shutdown_stops_every_worker
    (RealityPath : string -> string) (store0 : Store) (hm : HealthManager)
    (client : HttpClient) (node : string) (lg : Logger)
    (stores : list Store) (post : list LoopSelect) (w : World) :
  trace w = [] ->
  exists (pods : list PodWatch) (w1 w2 : World),
    MonitorPodHealth RealityPath store0 hm client node lg (map PollTick stores) w
    = (Some pods, w1)
    /\ MonitorPodHealth RealityPath store0 hm client node lg
         (map PollTick stores ++ Shutdown :: post) w
       = (None, w2)
    /\ trace w2 = trace w1 ++ map stopEvent pods ++ [EvManagerClose hm]
    /\ Permutation (stops (trace w2)) (map shutdownCh (spawned (trace w2))).
Proof.
  intros Ht.
  pose proof (MonitorPodHealth_Supervising RealityPath hm client node lg store0
                (map PollTick stores ++ Shutdown :: post) w Ht) as Hs.
  unfold MonitorPodHealth, bind in *.
  destruct (updateHealthMonitors RealityPath store0 hm client [] node lg w)
    as [pods0 w0].
  destruct (monitorLoop_polls RealityPath hm client node lg stores (Shutdown :: post)
              pods0 w0) as (pods1 & w1 & Heq & Heq').
  rewrite Heq' in *. rewrite Heq. clear Heq Heq'.
  simpl in *. unfold bind, emit, ret in *. rewrite shutdownAll_spec in *. simpl in *.
  eexists pods1, w1, _. split; [reflexivity|]. split; [reflexivity|]. simpl.
  split; [now rewrite <- app_assoc|].
  apply NoDup_Permutation; [apply (sup_stops Hs) | apply (sup_chans Hs) |].
  intros ch. split; [apply (sup_stops_own Hs)|].
  intros Hin. apply in_map_iff in Hin. destruct Hin as (p & <- & Hp).
  match goal with
  | |- In ?c ?l => destruct (in_dec Nat.eq_dec c l) as [Hyes | Hno]; [exact Hyes|]
  end.
  elim (proj2 (sup_live Hs p) (conj Hp Hno)).
Qed.

Lemma shutdown_stops_every_worker_witness :
  exists (pods : list PodWatch) (w1 w2 : World),
    MonitorPodHealth realityPath1 (storeOf [svc "svc1" 8080 true]) 7%nat 9%nat
      "node1" 1%nat (map PollTick [storeOf [svc "svc2" 9090 false]]) world0
    = (Some pods, w1)
    /\ MonitorPodHealth realityPath1 (storeOf [svc "svc1" 8080 true]) 7%nat 9%nat
         "node1" 1%nat
         (map PollTick [storeOf [svc "svc2" 9090 false]]
          ++ Shutdown :: [PollTick (storeOf [])]) world0
       = (None, w2)
    /\ trace w2 = trace w1 ++ map stopEvent pods ++ [EvManagerClose 7%nat]
    /\ Permutation (stops (trace w2)) (map shutdownCh (spawned (trace w2))).
Proof.
  apply (shutdown_stops_every_worker realityPath1 (storeOf [svc "svc1" 8080 true])
           7%nat 9%nat "node1" 1%nat [storeOf [svc "svc2" 9090 false]]
           [PollTick (storeOf [])] world0).
  reflexivity.
Defined.

(** ** More on one run of the diff *)

(** X4: a watch whose identity is absent from the snapshot is sent a stop
    signal and its identity is not supervised after the run; the stop
    signals of a run are exactly those, one per such watch, in the order
    of the prior set. *)
Theorem updatePods_stops_removed
    (hm : HealthManager) (client : HttpClient) (current : list PodWatch)
    (reality : list ManifestResult) (node : string) (lg : Logger) (w : World)
    (pod : PodWatch) :
  In pod current ->
  ~ In (podId pod) (map manId reality) ->
  let r := updatePods hm client current reality node lg w in
  ~ In (podId pod) (map podId (fst r))
  /\ exists evs : list Event,
       trace (snd r) = trace w ++ evs
       /\ stops evs
          = map shutdownCh (filter (fun p => negb (inReality reality p)) current)
       /\ In (shutdownCh pod) (stops evs).
Proof.
  intros Hin Hgone r. split.
  - intros Hid. apply in_map_iff in Hid. destruct Hid as (p & Hp & Hpin).
    apply updatePods_inReality in Hpin. apply inReality_In in Hpin.
    apply Hgone. now rewrite <- Hp.
  - subst r.
    destruct (updatePods_full hm client current reality node lg w)
      as (added & Heq & _).
    rewrite Heq. simpl. eexists. split; [reflexivity|].
    rewrite stops_app, stops_stopEvents, stops_spawnEvents, app_nil_r.
    split; [reflexivity|].
    apply in_map, filter_In. split; [exact Hin|].
    apply negb_true_iff. destruct (inReality reality pod) eqn:Hr; [|reflexivity].
    apply inReality_In in Hr. contradiction.
Qed.

Lemma updatePods_stops_removed_witness :
  let r := updatePods 7%nat 9%nat [watch1; watch2] [svc "svc2" 9090 false]
             "node1" 1%nat world1 in
  ~ In "svc1" (map podId (fst r))
  /\ exists evs : list Event,
       trace (snd r) = trace world1 ++ evs
       /\ stops evs = [0%nat]
       /\ In 0%nat (stops evs).
Proof.
  apply (updatePods_stops_removed 7%nat 9%nat [watch1; watch2]
           [svc "svc2" 9090 false] "node1" 1%nat world1 watch1).
  - now left.
  - simpl. intros [H | []]. discriminate H.
Defined.

(** X5: a watch of the result that was not supervised before was built in
    this run for a descriptor of the snapshot with a non-zero port: it
    carries that manifest, its checker has the manifest's Id, the node,
    the shared client and the URI scheme://node:port/_status with scheme
    http when the manifest asks for HTTP and https otherwise, and its
    updater was obtained for the manifest's Id. *)
Theorem updatePods_new_watches
    (hm : HealthManager) (client : HttpClient) (current : list PodWatch)
    (reality : list ManifestResult) (node : string) (lg : Logger) (w : World)
    (p : PodWatch) :
  In p (fst (updatePods hm client current reality node lg w)) ->
  In p current \/ (startedFor reality p /\ wellStarted client node lg p).
Proof.
  intros Hin.
  destruct (updatePods_full hm client current reality node lg w)
    as (added & Heq & Hstarted & _ & Hwell).
  rewrite Heq in Hin. simpl in Hin. apply in_app_iff in Hin.
  destruct Hin as [Hk | Ha].
  - left. now apply filter_In in Hk.
  - right. split; [now apply Hstarted|].
    rewrite Forall_forall in Hwell. now apply Hwell.
Qed.

Lemma updatePods_new_watches_witness :
  let p := mkPodWatch (mkManifest "svc3" 443 false "") (mkUpdater "svc3" "svc3" 1)
             (mkStatusChecker "svc3" "node1" "https://node1:443/_status" 9%nat)
             1%nat 1%nat in
  In p [watch1]
  \/ (startedFor [svc "svc1" 8080 true; svc "svc3" 443 false] p
      /\ wellStarted 9%nat "node1" 1%nat p).
Proof.
  intros p.
  apply (updatePods_new_watches 7%nat 9%nat [watch1]
           [svc "svc1" 8080 true; svc "svc3" 443 false] "node1" 1%nat world1 p).
  simpl. right. now left.
Defined.

(** ** The worker and its probe cycle *)

(** X6: a transport error is not an error of the cycle: the critical
    result carrying the error's text is handed to the watch's updater,
    nothing is logged and the response, if one came with the error, is
    left alone. *)
Theorem checkHealth_transport_error
    (p : PodWatch) (resp : option Response) (e : error) (put : option error)
    (w : World) :
  checkHealth p (mkProbeEnv (resp, Some e) put) w
  = (tt, mkWorld (nextChan w) (nextUpdater w)
           (trace w
            ++ [EvPutHealth (updater p)
                  (mkWatchResult (scID (statusChecker p)) (scNode (statusChecker p))
                                 (scID (statusChecker p)) Critical (Error e))])).
Proof.
  unfold checkHealth, bind, Check. simpl. destruct resp; reflexivity.
Qed.

(** X7: when reading the body fails, the cycle closes the body, logs the
    read error as a warning and hands nothing to the updater: the
    classification of the status code is not published. *)
Theorem checkHealth_read_error
    (p : PodWatch) (r : Response) (e : error) (put : option error) (w : World) :
  bodyErr (Body r) = Some e ->
  checkHealth p (mkProbeEnv (Some r, None) put) w
  = (tt, mkWorld (nextChan w) (nextUpdater w)
           (trace w ++ [EvBodyClose (Body r);
                        EvWarning (logger p) e "health check failed"])).
Proof.
  intros Hbody. unfold checkHealth, bind. cbn [getAnswer putAnswer].
  rewrite Check_response, Hbody. simpl. unfold Warningln, emit. simpl.
  now rewrite <- app_assoc.
Qed.

Lemma checkHealth_read_error_witness :
  checkHealth watch1
    (mkProbeEnv (Some (brokenResponse 200 "par" (mkError "unexpected EOF")), None) None)
    world1
  = (tt, mkWorld 1 1
           (trace world1
            ++ [EvBodyClose (mkBody "par" (Some (mkError "unexpected EOF")));
                EvWarning 1%nat (mkError "unexpected EOF") "health check failed"])).
Proof.
  apply (checkHealth_read_error watch1
           (brokenResponse 200 "par" (mkError "unexpected EOF")) None world1).
  reflexivity.
Defined.

(** What one probe cycle records, whatever the network and the updater
    answer. *)
Lemma checkHealth_events (p : PodWatch) (env : ProbeEnv) (w : World) :
  exists evs : list Event,
    checkHealth p env w
    = (tt, mkWorld (nextChan w) (nextUpdater w) (trace w ++ evs))
    /\ (List.length (published evs) + List.length (warnings evs) = 1)%nat
    /\ Forall (ownResult p) (published evs)
    /\ spawned evs = [] /\ stops evs = [] /\ closedUpdaters evs = [].
Proof.
  destruct env as [[resp err] put].
  unfold checkHealth, bind. cbn [getAnswer putAnswer].
  destruct err as [e|]; [|destruct resp as [r|]].
  - assert (Hc : Check (statusChecker p) (resp, Some e) w
                 = ((mkResult (scID (statusChecker p)) (scNode (statusChecker p))
                              (scID (statusChecker p)) Critical (Error e), None), w))
      by (destruct resp; reflexivity).
    rewrite Hc. simpl. unfold PutHealth, bind, emit, ret. simpl.
    eexists. split; [reflexivity|]. simpl. repeat split.
    constructor; [|constructor]. unfold ownResult. simpl. repeat split. now right.
  - rewrite Check_response.
    destruct (bodyErr (Body r)) as [e|]; simpl.
    + unfold Warningln, emit. simpl. rewrite <- app_assoc.
      eexists. split; [reflexivity|]. simpl. repeat split. constructor.
    + unfold PutHealth, bind, emit, ret. simpl. rewrite <- app_assoc.
      eexists. split; [reflexivity|]. simpl. repeat split.
      constructor; [|constructor]. unfold ownResult. simpl. repeat split.
      destruct ((200 <=? StatusCode r) && (StatusCode r <? 300)); [now left | now right].
  - unfold Check, PutHealth, bind, emit, ret. simpl.
    eexists. split; [reflexivity|]. simpl. repeat split.
    constructor; [|constructor]. unfold ownResult. simpl. repeat split. now right.
Qed.

(** X8: for as long as no stop signal arrives the worker stays running,
    and of its probe cycles each ends in exactly one of two ways, a result
    handed to the updater or a warning logged; every result goes to the
    watch's own updater, carries the checker's ID and node and is passing
    or critical; the worker starts no goroutine, sends no stop signal and
    does not close its updater. *)
Theorem MonitorHealth_cycles (p : PodWatch) (ticks : list ProbeEnv) :
  forall w : World,
  exists evs : list Event,
    MonitorHealth p (map ProbeTick ticks) w
    = (RUNNING, mkWorld (nextChan w) (nextUpdater w) (trace w ++ evs))
    /\ (List.length (published evs) + List.length (warnings evs)
        = List.length ticks)%nat
    /\ Forall (ownResult p) (published evs)
    /\ spawned evs = [] /\ stops evs = [] /\ closedUpdaters evs = [].
Proof.
  induction ticks as [|env ticks IH]; intros w; simpl.
  - exists []. unfold ret. rewrite app_nil_r, world_eta. repeat split. constructor.
  - destruct (checkHealth_events p env w)
      as (evs1 & Heq1 & Hn1 & Hown1 & Hsp1 & Hst1 & Hcl1).
    unfold bind. rewrite Heq1.
    match goal with
    | |- context [MonitorHealth p _ ?w1] =>
        destruct (IH w1) as (evs2 & Heq2 & Hn2 & Hown2 & Hsp2 & Hst2 & Hcl2)
    end.
    exists (evs1 ++ evs2). rewrite Heq2. simpl. rewrite <- app_assoc.
    split; [reflexivity|].
    rewrite published_app, warnings_app, spawned_app, stops_app, closedUpdaters_app,
      !length_app, Hsp1, Hsp2, Hst1, Hst2, Hcl1, Hcl2.
    repeat split; [lia|]. apply Forall_app. now split.
Qed.

(** X9: the stop signal is final: after any number of probe cycles it
    makes the worker close its updater, once and as the last thing it
    does, and stop; whatever its select would have received afterwards is
    never looked at. *)
Theorem MonitorHealth_stop_is_final
    (p : PodWatch) (ticks : list ProbeEnv) (post : list WorkerSelect) :
  forall w : World,
    MonitorHealth p (map ProbeTick ticks ++ ShutdownSignal :: post) w
    = (let w1 := snd (MonitorHealth p (map ProbeTick ticks) w) in
       (STOPPED, mkWorld (nextChan w1) (nextUpdater w1)
                   (trace w1 ++ [EvUpdaterClose (updater p)]))).
Proof.
  induction ticks as [|env ticks IH]; intros w; simpl.
  - reflexivity.
  - unfold bind. destruct (checkHealth p env w) as [[] w1]. apply IH.
Qed.

(** ** The order of a run *)

(** X10: a run first sends all its stop signals and then starts its new
    watches, each by obtaining an updater and then starting the
    goroutine; the result lists the kept watches in their prior order,
    followed by the started ones in the order they were started; no
    identity is both stopped and started in one run, and one fresh
    channel is made per started watch. *)
Theorem updatePods_run_layout
    (hm : HealthManager) (client : HttpClient) (current : list PodWatch)
    (reality : list ManifestResult) (node : string) (lg : Logger) (w : World) :
  let r := updatePods hm client current reality node lg w in
  exists stopped started : list PodWatch,
    trace (snd r)
    = trace w ++ map stopEvent stopped ++ flat_map (spawnEvents hm) started
    /\ fst r = filter (inReality reality) current ++ started
    /\ (forall p, In p stopped -> In p current /\ ~ In (podId p) (map manId reality))
    /\ (forall p, In p started -> In (podId p) (map manId reality))
    /\ nextChan (snd r) = (nextChan w + List.length started)%nat.
Proof.
  intros r. subst r.
  destruct (updatePods_full hm client current reality node lg w)
    as (added & Heq & Hstarted & _).
  rewrite Heq. simpl.
  exists (filter (fun p => negb (inReality reality p)) current), added.
  repeat split.
  - now apply filter_In in H.
  - apply filter_In in H. destruct H as [_ Hr]. apply negb_true_iff in Hr.
    intros Hin. apply inReality_In in Hin. congruence.
  - intros p Hp. apply inReality_In. now apply startedFor_inReality, Hstarted.
Qed.
